(** * Contour: the CDS cluster cache and the DAG-to-cluster visitor

    A shallow embedding of the cluster file of package [contour]: the
    versioned [clusterCache] with its waiter channels, and the
    [clusterVisitor] that walks a [dag.DAG] and files one [v2.Cluster] per
    service.

    Conventions.
    - Go's [int] is taken as the 64-bit two's-complement integer of the
      platforms Contour is built for; arithmetic on it wraps ([GoInt.wrap]).
    - A pointer to a struct that the program always allocates is modelled
      by the struct; a pointer field that may be [nil] is an [option].
    - Every method of [clusterCache] runs from [c.mu.Lock()] to
      [c.mu.Unlock()]; one call is therefore one transition of the
      sequential model below, and the mutex itself is not represented.
    - Channels live in a store shared by the cache and its callers, so that
      two waiters may be the same channel. *)

From Stdlib Require Import ZArith Lia.
From stdpp Require Import base option list strings gmap fin_maps.

(** ** Go integers *)

Module GoInt.
Definition bits : Z := 64.
Definition min_int : Z := - 2 ^ (bits - 1).
Definition max_int : Z := 2 ^ (bits - 1) - 1.

(** The value of an [int] expression whose mathematical value is [z]. *)
Definition wrap (z : Z) : Z := ((z + 2 ^ (bits - 1)) mod 2 ^ bits - 2 ^ (bits - 1))%Z.

(** [x++] *)
Definition incr (x : Z) : Z := wrap (x + 1).
End GoInt.

(** ** Channels of [int]

    A [chan int] value is the address of a channel object; an address that
    the store does not hold stands for the [nil] channel. A channel object
    has a buffer of [cap] slots, a count of receivers parked on it, and a
    closed flag. *)

Definition chan : Type := nat.

Record hchan : Type := Hchan {
  cap : nat;
  buf : list Z;
  recvq : nat;
  closed : bool;
}.

Definition set_buf (b : list Z) (st : hchan) : hchan :=
  {| cap := cap st; buf := b; recvq := recvq st; closed := closed st |}.
Definition set_recvq (n : nat) (st : hchan) : hchan :=
  {| cap := cap st; buf := buf st; recvq := n; closed := closed st |}.

(** A completed send: the channel and the value. *)
Definition event : Type := chan * Z.

(** What one attempt to send does to the channel object: the send
    completes (and leaves a new channel state), parks the sender, or
    panics. *)
Inductive send_result : Type :=
  | Sent (st' : hchan)
  | WouldBlock
  | SendPanic.

(** [ch <- v] on an allocated channel, as the Go runtime orders the cases:
    closed channel, then a parked receiver (direct hand-over), then a free
    buffer slot, and otherwise the sender blocks. *)
Definition chansend_hchan (st : hchan) (v : Z) : send_result :=
  if closed st then SendPanic
  else if (0 <? recvq st)%nat then Sent (set_recvq (pred (recvq st)) st)
  else if (length (buf st) <? cap st)%nat then Sent (set_buf (buf st ++ [v]) st)
  else WouldBlock.

(** The send can complete now. *)
Definition chan_ready (h : gmap chan hchan) (ch : chan) : bool :=
  match h !! ch with
  | Some st => negb (closed st) && ((0 <? recvq st)%nat || (length (buf st) <? cap st)%nat)
  | None => false
  end.

(** The deliveries to [ch] in a trace of sends, oldest first. *)
Definition deliveries (ch : chan) (tr : list event) : list Z :=
  (filter (λ e : event, e.1 = ch) tr).*2.

(** ** The protobuf messages the program builds

    Only the fields the program writes are kept. The enumerations list
    the constants of go-control-plane's [envoy/api/v2]. *)

Module types.
Record UInt32Value : Type := { Value : Z }.
End types.

Module envoy_type.
(** [Value] is a [float64] in Go; the only value written is the literal 0. *)
Record Percent : Type := { Value : Z }.
End envoy_type.

Module core.
Record GrpcService_EnvoyGrpc : Type := { ClusterName : string }.
Inductive GrpcService_TargetSpecifier : Type :=
  | GrpcService_EnvoyGrpc_ (EnvoyGrpc : GrpcService_EnvoyGrpc).
Record GrpcService : Type := { TargetSpecifier : GrpcService_TargetSpecifier }.
Inductive ApiConfigSource_ApiType : Type :=
  | ApiConfigSource_REST_LEGACY
  | ApiConfigSource_REST
  | ApiConfigSource_GRPC.
Record ApiConfigSource : Type := {
  ApiType : ApiConfigSource_ApiType;
  GrpcServices : list GrpcService;
}.
Inductive ConfigSource_ConfigSourceSpecifier : Type :=
  | ConfigSource_ApiConfigSource (src : ApiConfigSource).
Record ConfigSource : Type := {
  ConfigSourceSpecifier : ConfigSource_ConfigSourceSpecifier;
}.
(** [&core.Http2ProtocolOptions{}]: a message with every field unset. *)
Inductive Http2ProtocolOptions : Type := Http2ProtocolOptions_empty.
End core.

Module auth.
Record CommonTlsContext : Type := { AlpnProtocols : list string }.
Record UpstreamTlsContext : Type := {
  UpstreamTlsContext_CommonTlsContext : option CommonTlsContext;
}.
End auth.

Module cluster.
Record CircuitBreakers_Thresholds : Type := {
  MaxConnections : option types.UInt32Value;
  MaxPendingRequests : option types.UInt32Value;
  MaxRequests : option types.UInt32Value;
  MaxRetries : option types.UInt32Value;
}.
Record CircuitBreakers : Type := { Thresholds : list CircuitBreakers_Thresholds }.
End cluster.

Module v2.
Inductive Cluster_DiscoveryType : Type :=
  | Cluster_STATIC
  | Cluster_STRICT_DNS
  | Cluster_LOGICAL_DNS
  | Cluster_EDS
  | Cluster_ORIGINAL_DST.
Inductive Cluster_LbPolicy : Type :=
  | Cluster_ROUND_ROBIN
  | Cluster_LEAST_REQUEST
  | Cluster_RING_HASH
  | Cluster_RANDOM
  | Cluster_ORIGINAL_DST_LB
  | Cluster_MAGLEV.
Record Cluster_EdsClusterConfig : Type := {
  EdsConfig : option core.ConfigSource;
  ServiceName : string;
}.
Record Cluster_CommonLbConfig : Type := {
  HealthyPanicThreshold : option envoy_type.Percent;
}.
(** [HC] is [core.HealthCheck]. [ConnectTimeout] is a [time.Duration],
    a count of nanoseconds. *)
Record Cluster (HC : Type) : Type := {
  Name : string;
  Type_ : Cluster_DiscoveryType;
  EdsClusterConfig : option Cluster_EdsClusterConfig;
  ConnectTimeout : Z;
  LbPolicy : Cluster_LbPolicy;
  CommonLbConfig : option Cluster_CommonLbConfig;
  HealthChecks : list HC;
  CircuitBreakers : option cluster.CircuitBreakers;
  Http2ProtocolOptions : option core.Http2ProtocolOptions;
  TlsContext : option auth.UpstreamTlsContext;
}.
Arguments Name {HC} _.
Arguments Type_ {HC} _.
Arguments EdsClusterConfig {HC} _.
Arguments ConnectTimeout {HC} _.
Arguments LbPolicy {HC} _.
Arguments CommonLbConfig {HC} _.
Arguments HealthChecks {HC} _.
Arguments CircuitBreakers {HC} _.
Arguments Http2ProtocolOptions {HC} _.
Arguments TlsContext {HC} _.
End v2.

Module time.
Definition Nanosecond : Z := 1.
Definition Microsecond : Z := 1000 * Nanosecond.
Definition Millisecond : Z := 1000 * Microsecond.
End time.

(** ** The routing graph *)

Module v1.
(** Kubernetes' [v1.ServicePort]; the program reads its [Name]. *)
Record ServicePort : Type := { Name : string }.
End v1.

Module dag.
(** Modelled from the spec: [dag.Service] is declared in package
    [internal/dag], which the cluster file imports. The record holds what
    the program reads from a service, under the names it uses: the
    methods [Namespace()] and [Name()], the embedded [ServicePort], and
    the fields of section 3's ServiceVertex (load-balancer strategy,
    optional health check, the four limits, the protocol hint). The
    limits are [int]s: they are passed to [uint32OrNil(val int)]
    unconverted. [IRHC] is [ingressroutev1.HealthCheck]. *)
Record Service (IRHC : Type) : Type := {
  Namespace : string;
  Name : string;
  ServicePort : v1.ServicePort;
  Protocol : string;
  HealthCheck : option IRHC;
  LoadBalancerStrategy : string;
  MaxConnections : Z;
  MaxPendingRequests : Z;
  MaxRequests : Z;
  MaxRetries : Z;
}.
Arguments Namespace {IRHC} _.
Arguments Name {IRHC} _.
Arguments ServicePort {IRHC} _.
Arguments Protocol {IRHC} _.
Arguments HealthCheck {IRHC} _.
Arguments LoadBalancerStrategy {IRHC} _.
Arguments MaxConnections {IRHC} _.
Arguments MaxPendingRequests {IRHC} _.
Arguments MaxRequests {IRHC} _.
Arguments MaxRetries {IRHC} _.

(** Modelled from the spec: [dag.Vertex] and [dag.Visitable] are
    interfaces of package [internal/dag]. Section 6 gives their contract:
    [Visit(f)] on the graph calls [f] once per root, [Visit(f)] on a
    vertex calls [f] on each of its children, and a vertex is a
    ServiceVertex or of another kind. A vertex is modelled by its kind
    and the list of its children in the order [Visit] yields them; a
    vertex reachable along two edges occurs under both parents, which is
    how a visitor without a visited-set meets it. The graph is acyclic
    (section 4.3), so this unfolding is finite. *)
#[warnings="-register-all"]
Inductive Vertex (IRHC : Type) : Type :=
  | ServiceVertex (svc : Service IRHC) (children : list (Vertex IRHC))
  | OtherVertex (children : list (Vertex IRHC)).
Arguments ServiceVertex {IRHC} _ _.
Arguments OtherVertex {IRHC} _.

(** The roots of a [dag.DAG], in the order its [Visit] yields them. *)
Definition DAG (IRHC : Type) : Type := list (Vertex IRHC).
End dag.

(** ** What the cluster file takes from other packages and files

    [envoy.Clustername] and [envoy.HealthCheck] (package [internal/envoy]),
    the helper [u32] that [uint32OrNil] calls, and the two health-check
    message types are defined elsewhere. The development is parametric in
    them: every definition and theorem below holds for whatever they
    are. *)

Class Imports : Type := {
  ingressroutev1_HealthCheck : Type;
  core_HealthCheck : Type;
  envoy_Clustername : dag.Service ingressroutev1_HealthCheck → string;
  envoy_HealthCheck : ingressroutev1_HealthCheck → core_HealthCheck;
  u32 : Z → types.UInt32Value;
}.

Section Model.
Context `{Imports}.

Local Abbreviation Cluster := (v2.Cluster core_HealthCheck).
Local Abbreviation Service := (dag.Service ingressroutev1_HealthCheck).
Local Abbreviation Vertex := (dag.Vertex ingressroutev1_HealthCheck).

(** ** The cluster cache *)

(** [type clusterCache struct]: [values], [waiters] and [last]. A [nil]
    map and an empty map read alike, as do a [nil] and an empty slice. *)
Record clusterCache : Type := ClusterCache {
  values : gmap string Cluster;
  waiters : list chan;
  last : Z;
}.

(** The zero value [clusterCache{}]. *)
Definition zero_clusterCache : clusterCache :=
  {| values := ∅; waiters := []; last := 0 |}.

(** The cache together with the channels its callers created. *)
Record world : Type := World {
  c : clusterCache;
  chans : gmap chan hchan;
}.

(** One call either returns, with the new state and the sends it
    completed, or parks its goroutine forever on a send (there is no other
    goroutine in the model to receive), or panics. *)
Inductive outcome (A : Type) : Type :=
  | Done (a : A) (w : world) (tr : list event)
  | Blocked
  | Panicked.
Arguments Done {A} _ _ _.
Arguments Blocked {A}.
Arguments Panicked {A}.

Definition M (A : Type) : Type := world → outcome A.

Definition ret {A} (a : A) : M A := λ w, Done a w [].

Definition bind {A B} (m : M A) (k : A → M B) : M B := λ w,
  match m w with
  | Done a w1 tr1 =>
      match k a w1 with
      | Done b w2 tr2 => Done b w2 (tr1 ++ tr2)
      | Blocked => Blocked
      | Panicked => Panicked
      end
  | Blocked => Blocked
  | Panicked => Panicked
  end.

#[global] Instance M_ret : MRet M := @ret.
#[global] Instance M_bind : MBind M := λ A B k m, bind m k.

(** Reads and writes of the fields of [c]. *)
Definition get_last : M Z := λ w, Done (last (c w)) w [].
Definition get_waiters : M (list chan) := λ w, Done (waiters (c w)) w [].
Definition set_last (n : Z) : M unit := λ w,
  Done tt {| c := {| values := values (c w); waiters := waiters (c w); last := n |};
             chans := chans w |} [].
Definition set_waiters (ws : list chan) : M unit := λ w,
  Done tt {| c := {| values := values (c w); waiters := ws; last := last (c w) |};
             chans := chans w |} [].
Definition set_values (v : gmap string Cluster) : M unit := λ w,
  Done tt {| c := {| values := v; waiters := waiters (c w); last := last (c w) |};
             chans := chans w |} [].

(** The statement [ch <- v]. Sending on a [nil] channel blocks forever. *)
Definition chansend (ch : chan) (v : Z) : M unit := λ w,
  match chans w !! ch with
  | None => Blocked
  | Some st =>
      match chansend_hchan st v with
      | Sent st' => Done tt {| c := c w; chans := <[ch := st']> (chans w) |} [(ch, v)]
      | WouldBlock => Blocked
      | SendPanic => Panicked
      end
  end.

(** [for _, x := range xs { body }] over a slice. *)
Fixpoint for_range {A} (xs : list A) (body : A → M unit) : M unit :=
  match xs with
  | [] => ret tt
  | x :: xs' => body x;; for_range xs' body
  end.

(** [func (c *clusterCache) Register(ch chan int, last int)] *)
Definition Register (ch : chan) (last_ : Z) : M unit :=
  c_last ← get_last;
  if (last_ <? c_last)%Z then
    (* notify this channel immediately *)
    c_last ← get_last;
    chansend ch c_last
  else
    ws ← get_waiters;
    set_waiters (ws ++ [ch]).

(** [func (c *clusterCache) notify()] *)
Definition notify : M unit :=
  c_last ← get_last;
  set_last (GoInt.incr c_last);;
  ws ← get_waiters;
  for_range ws (λ ch, c_last ← get_last; chansend ch c_last);;
  set_waiters [].

(** [func (c *clusterCache) Update(v map[string]*v2.Cluster)] *)
Definition Update (v : gmap string Cluster) : M unit :=
  set_values v;;
  notify.

(** The loop of [Values] over the entries of [c.values] taken in the
    order [order]. *)
Fixpoint Values_loop (order : list (string * Cluster)) (filter : string → bool)
    (values_ : list Cluster) : list Cluster :=
  match order with
  | [] => values_
  | (_, v) :: rest =>
      if filter (v2.Name v) then Values_loop rest filter (values_ ++ [v])
      else Values_loop rest filter values_
  end.

(** [func (c *clusterCache) Values(filter func(string) bool) []proto.Message].
    Go leaves the order in which [range] walks a map unspecified, and it
    may differ from one call to the next: [Values_in order] is the call in
    which [range] yields the entries in the order [order], and
    [Values filter w out] says that some such call returns [out]. The call
    changes nothing and sends nothing. *)
Definition Values_in (order : list (string * Cluster)) (filter : string → bool) : list Cluster :=
  Values_loop order filter [].

Definition Values (filter : string → bool) (w : world) (out : list Cluster) : Prop :=
  ∃ order, order ≡ₚ map_to_list (values (c w)) ∧ out = Values_in order filter.

(** A sequence of calls on one cache, run one after the other. *)
Inductive call : Type :=
  | CallRegister (ch : chan) (last_ : Z)
  | CallUpdate (v : gmap string Cluster).

Definition run_call (k : call) : M unit :=
  match k with
  | CallRegister ch last_ => Register ch last_
  | CallUpdate v => Update v
  end.

Fixpoint run (ks : list call) : M unit :=
  match ks with
  | [] => ret tt
  | k :: ks' => run_call k;; run ks'
  end.

Definition is_update (k : call) : bool :=
  match k with CallUpdate _ => true | CallRegister _ _ => false end.

Definition count_updates (ks : list call) : nat :=
  length (filter (λ k, is_update k = true) ks).

(** The channel store after a send on [ch] has completed. *)
Definition chans_after_send (h : gmap chan hchan) (ch : chan) (v : Z) : gmap chan hchan :=
  match h !! ch with
  | Some st =>
      match chansend_hchan st v with
      | Sent st' => <[ch := st']> h
      | _ => h
      end
  | None => h
  end.

Definition chans_after_broadcast (h : gmap chan hchan) (ws : list chan) (v : Z) : gmap chan hchan :=
  foldl (λ h' ch, chans_after_send h' ch v) h ws.

(** ** The cluster visitor *)

(** [strings.Join(elems, sep)] *)
Fixpoint strings_Join (elems : list string) (sep : string) : string :=
  match elems with
  | [] => ""
  | e :: rest =>
      match rest with
      | [] => e
      | _ :: _ => e +:+ sep +:+ strings_Join rest sep
      end
  end.

(** [func edslbstrategy(lbStrategy string) v2.Cluster_LbPolicy] *)
Definition edslbstrategy (lbStrategy : string) : v2.Cluster_LbPolicy :=
  if String.eqb lbStrategy "WeightedLeastRequest" then v2.Cluster_LEAST_REQUEST
  else if String.eqb lbStrategy "RingHash" then v2.Cluster_RING_HASH
  else if String.eqb lbStrategy "Maglev" then v2.Cluster_MAGLEV
  else if String.eqb lbStrategy "Random" then v2.Cluster_RANDOM
  else v2.Cluster_ROUND_ROBIN.

(** [func edshealthcheck(hc *ingressroutev1.HealthCheck) []*core.HealthCheck] *)
Definition edshealthcheck (hc : option ingressroutev1_HealthCheck) : list core_HealthCheck :=
  match hc with
  | None => []
  | Some hc => [envoy_HealthCheck hc]
  end.

(** [func uint32OrNil(val int) *types.UInt32Value] *)
Definition uint32OrNil (val : Z) : option types.UInt32Value :=
  if (val =? 0)%Z then None else Some (u32 val).

(** [func apiconfigsource(clusters ...string) *core.ConfigSource] *)
Definition apiconfigsource (clusters : list string) : core.ConfigSource :=
  let services :=
    foldl (λ services c_,
             services ++ [ {| core.TargetSpecifier :=
                                core.GrpcService_EnvoyGrpc_ {| core.ClusterName := c_ |} |} ])
          [] clusters in
  {| core.ConfigSourceSpecifier :=
       core.ConfigSource_ApiConfigSource
         {| core.ApiType := core.ApiConfigSource_GRPC; core.GrpcServices := services |} |}.

(** [func edsconfig(source string, service *dag.Service) *v2.Cluster_EdsClusterConfig] *)
Definition edsconfig (source : string) (service : Service) : v2.Cluster_EdsClusterConfig :=
  let name := [dag.Namespace service; dag.Name service; v1.Name (dag.ServicePort service)] in
  let name := if String.eqb (default "" (name !! 2%nat)) "" then take 2 name else name in
  {| v2.EdsConfig := Some (apiconfigsource [source]); (* hard coded by initconfig *)
     v2.ServiceName := strings_Join name "/" |}.

(** Assignments to fields of [c] after the composite literal. *)
Definition set_CircuitBreakers (x : option cluster.CircuitBreakers) (c_ : Cluster) : Cluster :=
  {| v2.Name := v2.Name c_; v2.Type_ := v2.Type_ c_;
     v2.EdsClusterConfig := v2.EdsClusterConfig c_; v2.ConnectTimeout := v2.ConnectTimeout c_;
     v2.LbPolicy := v2.LbPolicy c_; v2.CommonLbConfig := v2.CommonLbConfig c_;
     v2.HealthChecks := v2.HealthChecks c_; v2.CircuitBreakers := x;
     v2.Http2ProtocolOptions := v2.Http2ProtocolOptions c_; v2.TlsContext := v2.TlsContext c_ |}.
Definition set_Http2ProtocolOptions (x : option core.Http2ProtocolOptions) (c_ : Cluster) : Cluster :=
  {| v2.Name := v2.Name c_; v2.Type_ := v2.Type_ c_;
     v2.EdsClusterConfig := v2.EdsClusterConfig c_; v2.ConnectTimeout := v2.ConnectTimeout c_;
     v2.LbPolicy := v2.LbPolicy c_; v2.CommonLbConfig := v2.CommonLbConfig c_;
     v2.HealthChecks := v2.HealthChecks c_; v2.CircuitBreakers := v2.CircuitBreakers c_;
     v2.Http2ProtocolOptions := x; v2.TlsContext := v2.TlsContext c_ |}.
Definition set_TlsContext (x : option auth.UpstreamTlsContext) (c_ : Cluster) : Cluster :=
  {| v2.Name := v2.Name c_; v2.Type_ := v2.Type_ c_;
     v2.EdsClusterConfig := v2.EdsClusterConfig c_; v2.ConnectTimeout := v2.ConnectTimeout c_;
     v2.LbPolicy := v2.LbPolicy c_; v2.CommonLbConfig := v2.CommonLbConfig c_;
     v2.HealthChecks := v2.HealthChecks c_; v2.CircuitBreakers := v2.CircuitBreakers c_;
     v2.Http2ProtocolOptions := v2.Http2ProtocolOptions c_; v2.TlsContext := x |}.

(** The cluster [edscluster] builds for [svc] under the name [name]: the
    composite literal, the circuit-breaker block and the protocol switch
    (the body of [edscluster] between the lookup and the insertion). *)
Definition edscluster_new (name : string) (svc : Service) : Cluster :=
  let c_ : Cluster :=
    {| v2.Name := name;
       v2.Type_ := v2.Cluster_EDS;
       v2.EdsClusterConfig := Some (edsconfig "contour" svc);
       v2.ConnectTimeout := 250 * time.Millisecond;
       v2.LbPolicy := edslbstrategy (dag.LoadBalancerStrategy svc);
       v2.CommonLbConfig :=
         Some {| v2.HealthyPanicThreshold := (* Disable HealthyPanicThreshold *)
                   Some {| envoy_type.Value := 0 |} |};
       v2.HealthChecks := edshealthcheck (dag.HealthCheck svc);
       v2.CircuitBreakers := None;
       v2.Http2ProtocolOptions := None;
       v2.TlsContext := None |} in
  let c_ :=
    if (0 <? dag.MaxConnections svc)%Z || (0 <? dag.MaxPendingRequests svc)%Z
       || (0 <? dag.MaxRequests svc)%Z || (0 <? dag.MaxRetries svc)%Z
    then
      set_CircuitBreakers
        (Some {| cluster.Thresholds :=
                   [ {| cluster.MaxConnections := uint32OrNil (dag.MaxConnections svc);
                        cluster.MaxPendingRequests := uint32OrNil (dag.MaxPendingRequests svc);
                        cluster.MaxRequests := uint32OrNil (dag.MaxRequests svc);
                        cluster.MaxRetries := uint32OrNil (dag.MaxRetries svc) |} ] |}) c_
    else c_ in
  if String.eqb (dag.Protocol svc) "h2" then
    set_TlsContext
      (Some {| auth.UpstreamTlsContext_CommonTlsContext :=
                 Some {| auth.AlpnProtocols := ["h2"] |} |})
      (set_Http2ProtocolOptions (Some core.Http2ProtocolOptions_empty) c_)
  else if String.eqb (dag.Protocol svc) "h2c" then
    set_Http2ProtocolOptions (Some core.Http2ProtocolOptions_empty) c_
  else c_.

(** [func (v *clusterVisitor) edscluster(svc *dag.Service)], as a function
    of [v.clusters]. *)
Definition edscluster (svc : Service) (clusters : gmap string Cluster) : gmap string Cluster :=
  let name := envoy_Clustername svc in
  match clusters !! name with
  | Some _ =>
      (* already created this cluster via another edge. skip it. *)
      clusters
  | None =>
      let c_ := edscluster_new name svc in
      <[v2.Name c_ := c_]> clusters
  end.

(** [func (v *clusterVisitor) visit(vertex dag.Vertex)]; [vertex.Visit(v.visit)]
    calls [v.visit] on the children in turn. *)
Fixpoint visit (vertex : Vertex) (clusters : gmap string Cluster) : gmap string Cluster :=
  match vertex with
  | dag.ServiceVertex service children =>
      let clusters := edscluster service clusters in
      (* recurse into children of v *)
      foldl (λ clusters child, visit child clusters) clusters children
  | dag.OtherVertex children =>
      (* recurse into children of v *)
      foldl (λ clusters child, visit child clusters) clusters children
  end.

(** [func (v *clusterVisitor) Visit() map[string]*v2.Cluster] *)
Definition Visit (d : dag.DAG ingressroutev1_HealthCheck) : gmap string Cluster :=
  let clusters : gmap string Cluster := ∅ in
  foldl (λ clusters root, visit root clusters) clusters d.

(** The service vertices a traversal from [vertex] meets, in the order it
    meets them, each as often as it is met. *)
Fixpoint services_of (vertex : Vertex) : list Service :=
  match vertex with
  | dag.ServiceVertex service children => service :: concat (map services_of children)
  | dag.OtherVertex children => concat (map services_of children)
  end.

Definition services (d : dag.DAG ingressroutev1_HealthCheck) : list Service :=
  concat (map services_of d).

(** No ['/'] in a string. *)
Fixpoint slash_free (s : string) : bool :=
  match s with
  | EmptyString => true
  | String a s' => negb (Ascii.eqb a (Ascii.ascii_of_nat 47)) && slash_free s'
  end.

(** Kubernetes object names and port names are DNS labels: they hold no
    ['/']. *)
Definition wellformed (svc : Service) : bool :=
  slash_free (dag.Namespace svc) && slash_free (dag.Name svc)
  && slash_free (v1.Name (dag.ServicePort svc)).

(** The precondition [Register]'s comment puts on its callers, read at the
    time of a broadcast: every pending channel can take a value now, and
    no channel is pending twice. *)
Definition waiters_ready (w : world) : Prop :=
  NoDup (waiters (c w)) ∧ Forall (λ ch, chan_ready (chans w) ch = true) (waiters (c w)).

(** How a limit [val] is written into a threshold field. *)
Definition limit_encoded (val : Z) (field : option types.UInt32Value) : Prop :=
  ((0 < val)%Z → field = Some (u32 val)) ∧ (val = 0%Z → field = None).

(** Induction over a vertex with the hypothesis on all its children. *)
Definition Vertex_ind_children (P : Vertex → Prop)
    (Hsvc : ∀ svc cs, Forall P cs → P (dag.ServiceVertex svc cs))
    (Hother : ∀ cs, Forall P cs → P (dag.OtherVertex cs)) : ∀ vertex, P vertex :=
  fix go (vertex : Vertex) : P vertex :=
    let go_list := fix go_list (cs : list Vertex) : Forall P cs :=
      match cs with
      | [] => List.Forall_nil P
      | x :: cs' => List.Forall_cons P x cs' (go x) (go_list cs')
      end in
    match vertex with
    | dag.ServiceVertex svc cs => Hsvc svc cs (go_list cs)
    | dag.OtherVertex cs => Hother cs (go_list cs)
    end.

End Model.

Arguments Done {H A} _ _ _.
Arguments Blocked {H A}.
Arguments Panicked {H A}.

(** ** Worked instances

    An instance of [Imports] to run the definitions on: the health-check
    messages carry nothing, the cluster name is the namespace/name/port
    path of [edsconfig], and [u32] converts as Go's [uint32(val)]. *)

Module Examples.

Definition imports : Imports :=
  {| ingressroutev1_HealthCheck := unit;
     core_HealthCheck := unit;
     envoy_Clustername := λ svc,
       strings_Join
         (if String.eqb (v1.Name (dag.ServicePort svc)) ""
          then [dag.Namespace svc; dag.Name svc]
          else [dag.Namespace svc; dag.Name svc; v1.Name (dag.ServicePort svc)]) "/";
     envoy_HealthCheck := λ hc, hc;
     u32 := λ val, {| types.Value := val mod 2 ^ 32 |} |}.

#[local] Existing Instance imports.

(** [make(chan int, 1)], nothing sent yet, nobody receiving. *)
Definition fresh_chan : hchan := {| cap := 1; buf := []; recvq := 0; closed := false |}.

(** A new cache, and two channels made by subscribers. *)
Definition w0 : world :=
  {| c := zero_clusterCache; chans := {[ 0%nat := fresh_chan; 1%nat := fresh_chan ]} |}.

(** The cache after one [Update]: the counter is 1. *)
Definition w1 : world :=
  {| c := {| values := ∅; waiters := []; last := 1 |}; chans := chans w0 |}.

(** [w1] after a stale [Register] on channel 0 that nobody received. *)
Definition w1_full : world :=
  {| c := c w1;
     chans := <[ 0%nat := {| cap := 1; buf := [1%Z]; recvq := 0; closed := false |} ]> (chans w0) |}.

(** Both channels pending at counter 1. *)
Definition w1_pending : world :=
  {| c := {| values := ∅; waiters := [0%nat; 1%nat]; last := 1 |}; chans := chans w0 |}.

(** The vertex of section 8's end-to-end scenario, and a second vertex
    for the same backend met along another route. *)
Definition web : dag.Service ingressroutev1_HealthCheck :=
  {| dag.Namespace := "default"; dag.Name := "web";
     dag.ServicePort := {| v1.Name := "http" |};
     dag.Protocol := "h2"; dag.HealthCheck := None;
     dag.LoadBalancerStrategy := "";
     dag.MaxConnections := 0; dag.MaxPendingRequests := 0;
     dag.MaxRequests := 100; dag.MaxRetries := 0 |}.

Definition web_again : dag.Service ingressroutev1_HealthCheck :=
  {| dag.Namespace := "default"; dag.Name := "web";
     dag.ServicePort := {| v1.Name := "http" |};
     dag.Protocol := "h2c"; dag.HealthCheck := None;
     dag.LoadBalancerStrategy := "Random";
     dag.MaxConnections := 5; dag.MaxPendingRequests := 0;
     dag.MaxRequests := 0; dag.MaxRetries := 0 |}.

Definition api : dag.Service ingressroutev1_HealthCheck :=
  {| dag.Namespace := "default"; dag.Name := "api";
     dag.ServicePort := {| v1.Name := "" |};
     dag.Protocol := ""; dag.HealthCheck := Some tt;
     dag.LoadBalancerStrategy := "Maglev";
     dag.MaxConnections := 5; dag.MaxPendingRequests := 0;
     dag.MaxRequests := 0; dag.MaxRetries := 0 |}.

(** Two virtual hosts; the second reaches [web] again, below [api]. *)
Definition graph : dag.DAG ingressroutev1_HealthCheck :=
  [ dag.OtherVertex [ dag.OtherVertex [ dag.ServiceVertex web [] ] ];
    dag.OtherVertex [ dag.ServiceVertex api [ dag.ServiceVertex web_again [] ] ] ].

End Examples.

(** * Proofs *)

Section Proofs.
Context `{Imports}.

Local Abbreviation Cluster := (v2.Cluster core_HealthCheck).
Local Abbreviation Service := (dag.Service ingressroutev1_HealthCheck).
Local Abbreviation Vertex := (dag.Vertex ingressroutev1_HealthCheck).

Local Ltac unfold_M :=
  unfold Update, notify, Register, mbind, M_bind, bind, mret, M_ret, ret,
    get_last, get_waiters, set_last, set_waiters, set_values in *; simpl in *.

(** ** Facts about integers and channels *)

Lemma incr_in_range (x : Z) :
  (GoInt.min_int <= x < GoInt.max_int)%Z → GoInt.incr x = (x + 1)%Z.
Proof.
  unfold GoInt.incr, GoInt.wrap, GoInt.min_int, GoInt.max_int, GoInt.bits.
  intros Hx. rewrite Z.mod_small; lia.
Qed.

Lemma incr_max_int : GoInt.incr GoInt.max_int = GoInt.min_int.
Proof. reflexivity. Qed.

Lemma chansend_hchan_ready (h : gmap chan hchan) (ch : chan) (v : Z) :
  chan_ready h ch = true ↔ ∃ st st', h !! ch = Some st ∧ chansend_hchan st v = Sent st'.
Proof.
  unfold chan_ready, chansend_hchan. split.
  - destruct (h !! ch) as [st|]; [|done]. intros Hr.
    apply andb_true_iff in Hr as [Hc Hroom]. apply negb_true_iff in Hc.
    exists st. rewrite Hc.
    destruct (0 <? recvq st)%nat; [eauto|].
    simpl in Hroom. rewrite Hroom. eauto.
  - intros (st & st' & -> & Hs).
    destruct (closed st); [done|].
    destruct (0 <? recvq st)%nat; [done|].
    destruct (length (buf st) <? cap st)%nat; done.
Qed.

Lemma chansend_ready (ch : chan) (v : Z) (w : world) :
  chan_ready (chans w) ch = true →
  chansend ch v w = Done tt {| c := c w; chans := chans_after_send (chans w) ch v |} [(ch, v)].
Proof.
  intros Hr. apply (chansend_hchan_ready _ _ v) in Hr as (st & st' & Hl & Hs).
  unfold chansend, chans_after_send. by rewrite Hl, Hs.
Qed.

Lemma chansend_Done_inv (ch : chan) (v : Z) (w w' : world) (tr : list event) :
  chansend ch v w = Done tt w' tr → chan_ready (chans w) ch = true.
Proof.
  intros Hs. apply (chansend_hchan_ready _ _ v).
  unfold chansend in Hs. destruct (chans w !! ch) as [st|] eqn:Hl; [|done].
  destruct (chansend_hchan st v) as [st'| |] eqn:Hst; [|done..]. eauto.
Qed.

Lemma chan_ready_after_send_ne (h : gmap chan hchan) (ch ch' : chan) (v : Z) :
  ch ≠ ch' → chan_ready (chans_after_send h ch v) ch' = chan_ready h ch'.
Proof.
  intros Hne. unfold chans_after_send.
  destruct (h !! ch) as [st|]; [|done].
  destruct (chansend_hchan st v); [|done..].
  unfold chan_ready. by rewrite lookup_insert_ne.
Qed.

Lemma chans_after_send_ne (h : gmap chan hchan) (ch ch' : chan) (v : Z) :
  ch ≠ ch' → chans_after_send h ch v !! ch' = h !! ch'.
Proof.
  intros Hne. unfold chans_after_send.
  destruct (h !! ch) as [st|]; [|done].
  destruct (chansend_hchan st v); [|done..].
  by rewrite lookup_insert_ne.
Qed.

Lemma deliveries_broadcast_notin (ch : chan) (v : Z) (ws : list chan) :
  ch ∉ ws → deliveries ch (map (λ x, (x, v)) ws) = [].
Proof.
  induction ws as [|x ws IH]; [done|]. intros Hni.
  apply not_elem_of_cons in Hni as [Hne Hni].
  unfold deliveries in *. simpl. rewrite filter_cons_False by (simpl; congruence).
  by apply IH.
Qed.

Lemma deliveries_broadcast_in (ch : chan) (v : Z) (ws : list chan) :
  NoDup ws → ch ∈ ws → deliveries ch (map (λ x, (x, v)) ws) = [v].
Proof.
  induction ws as [|x ws IH]; intros Hnd Hin; [by apply elem_of_nil in Hin|].
  apply NoDup_cons in Hnd as [Hx Hnd].
  destruct (decide (x = ch)) as [->|Hne].
  - unfold deliveries. simpl. rewrite filter_cons_True by done. simpl.
    f_equal. by apply deliveries_broadcast_notin.
  - apply elem_of_cons in Hin as [->|Hin]; [done|].
    unfold deliveries in *. simpl. rewrite filter_cons_False by (simpl; congruence).
    by apply IH.
Qed.

(** ** The broadcast loop *)

Lemma for_range_cons {A} (x : A) (xs : list A) (body : A → M unit) (w : world) :
  for_range (x :: xs) body w =
    match body x w with
    | Done _ w1 tr1 =>
        match for_range xs body w1 with
        | Done b w2 tr2 => Done b w2 (tr1 ++ tr2)
        | Blocked => Blocked
        | Panicked => Panicked
        end
    | Blocked => Blocked
    | Panicked => Panicked
    end.
Proof. reflexivity. Qed.

Lemma broadcast_ready (ws : list chan) (w : world) :
  NoDup ws →
  Forall (λ ch, chan_ready (chans w) ch = true) ws →
  for_range ws (λ ch, c_last ← get_last; chansend ch c_last) w
  = Done tt {| c := c w; chans := chans_after_broadcast (chans w) ws (last (c w)) |}
      (map (λ ch, (ch, last (c w))) ws).
Proof.
  revert w. induction ws as [|ch ws IH]; intros w Hnd Hr.
  - by destruct w.
  - apply NoDup_cons in Hnd as [Hni Hnd]. apply Forall_cons in Hr as [Hch Hr].
    rewrite for_range_cons. unfold_M. rewrite (chansend_ready _ _ _ Hch).
    rewrite IH; [done|done|]. simpl.
    apply Forall_forall. intros x Hx.
    rewrite chan_ready_after_send_ne by (intros ->; done).
    by eapply Forall_forall in Hr.
Qed.

Lemma chans_after_broadcast_notin (h : gmap chan hchan) (ws : list chan) (v : Z) (ch : chan) :
  ch ∉ ws → chans_after_broadcast h ws v !! ch = h !! ch.
Proof.
  revert h. induction ws as [|x ws IH]; intros h Hni; [done|].
  apply not_elem_of_cons in Hni as [Hne Hni]. simpl.
  rewrite IH by done. by apply chans_after_send_ne.
Qed.

(** ** [Register], [notify] and [Update], step by step *)

Lemma Register_stale (ch : chan) (last_ : Z) (w : world) :
  (last_ < last (c w))%Z →
  Register ch last_ w = chansend ch (last (c w)) w.
Proof.
  intros Hlt. unfold_M. apply Z.ltb_lt in Hlt. rewrite Hlt.
  by destruct (chansend ch (last (c w)) w).
Qed.

Lemma Register_current (ch : chan) (last_ : Z) (w : world) :
  (last (c w) <= last_)%Z →
  Register ch last_ w
  = Done tt {| c := {| values := values (c w); waiters := waiters (c w) ++ [ch];
                       last := last (c w) |};
               chans := chans w |} [].
Proof.
  intros Hge. unfold_M. apply Z.ltb_ge in Hge. by rewrite Hge.
Qed.

Lemma Update_ready (v : gmap string Cluster) (w : world) :
  waiters_ready w →
  Update v w
  = Done tt {| c := {| values := v; waiters := []; last := GoInt.incr (last (c w)) |};
               chans := chans_after_broadcast (chans w) (waiters (c w)) (GoInt.incr (last (c w))) |}
      (map (λ ch, (ch, GoInt.incr (last (c w)))) (waiters (c w))).
Proof.
  intros [Hnd Hr]. unfold Update, notify.
  unfold mbind, M_bind, bind at 1 2 3 4. unfold set_values, get_last, set_last, get_waiters. simpl.
  unfold bind at 1. rewrite broadcast_ready by done. simpl.
  by rewrite app_nil_r.
Qed.

Lemma chansend_cache (ch : chan) (v : Z) (w w' : world) (tr : list event) :
  chansend ch v w = Done tt w' tr → c w' = c w.
Proof.
  unfold chansend. destruct (chans w !! ch) as [st|]; [|done].
  destruct (chansend_hchan st v); [|done..]. by intros [= <- <-].
Qed.

Lemma chansend_trace (ch : chan) (v : Z) (w w' : world) (tr : list event) :
  chansend ch v w = Done tt w' tr → tr = [(ch, v)].
Proof.
  unfold chansend. destruct (chans w !! ch) as [st|]; [|done].
  destruct (chansend_hchan st v); [|done..]. by intros [= <- <-].
Qed.

Lemma broadcast_cache (ws : list chan) (w w' : world) (tr : list event) :
  for_range ws (λ ch, c_last ← get_last; chansend ch c_last) w = Done tt w' tr →
  c w' = c w.
Proof.
  revert w w' tr. induction ws as [|ch ws IH]; intros w w' tr.
  - unfold_M. by intros [= <- <-].
  - rewrite for_range_cons. unfold_M.
    destruct (chansend ch (last (c w)) w) as [[] w2 tr2| |] eqn:Hs; [|done..].
    destruct (for_range ws _ w2) as [[] w3 tr3| |] eqn:Hf; [|done..].
    intros [= <- <-]. rewrite (IH _ _ _ Hf). by eapply chansend_cache.
Qed.

Lemma broadcast_trace (ws : list chan) (w w' : world) (tr : list event) :
  for_range ws (λ ch, c_last ← get_last; chansend ch c_last) w = Done tt w' tr →
  tr = map (λ ch, (ch, last (c w))) ws.
Proof.
  revert w w' tr. induction ws as [|ch ws IH]; intros w w' tr.
  - unfold_M. by intros [= <- <-].
  - rewrite for_range_cons. unfold_M.
    destruct (chansend ch (last (c w)) w) as [[] w2 tr2| |] eqn:Hs; [|done..].
    destruct (for_range ws _ w2) as [[] w3 tr3| |] eqn:Hf; [|done..].
    intros [= <- <-]. rewrite (IH _ _ _ Hf).
    rewrite (chansend_trace _ _ _ _ _ Hs), (chansend_cache _ _ _ _ _ Hs). done.
Qed.

Lemma Update_Done_trace (v : gmap string Cluster) (w w' : world) (tr : list event) :
  Update v w = Done tt w' tr →
  tr = map (λ ch, (ch, GoInt.incr (last (c w)))) (waiters (c w)).
Proof.
  unfold Update, notify.
  unfold mbind, M_bind, bind at 1 2 3 4. unfold set_values, get_last, set_last, get_waiters. simpl.
  unfold bind at 1.
  destruct (for_range _ _ _) as [[] w1 tr1| |] eqn:Hfr; [|done..].
  apply broadcast_trace in Hfr. unfold_M. intros [= <- <-]. by rewrite app_nil_r.
Qed.

Lemma Update_Done_inv (v : gmap string Cluster) (w w' : world) (tr : list event) :
  Update v w = Done tt w' tr →
  values (c w') = v ∧ waiters (c w') = [] ∧ last (c w') = GoInt.incr (last (c w)).
Proof.
  unfold Update, notify.
  unfold mbind, M_bind, bind at 1 2 3 4. unfold set_values, get_last, set_last, get_waiters. simpl.
  unfold bind at 1.
  destruct (for_range _ _ _) as [[] w1 tr1| |] eqn:Hfr; [|done..].
  apply broadcast_cache in Hfr. unfold_M. intros [= <- <-]. simpl. by rewrite Hfr.
Qed.

Lemma broadcast_Done_ready (ws : list chan) (w w' : world) (tr : list event) :
  NoDup ws →
  for_range ws (λ ch, c_last ← get_last; chansend ch c_last) w = Done tt w' tr →
  Forall (λ ch, chan_ready (chans w) ch = true) ws.
Proof.
  revert w w' tr. induction ws as [|ch ws IH]; intros w w' tr Hnd; [done|].
  apply NoDup_cons in Hnd as [Hni Hnd].
  rewrite for_range_cons. unfold_M.
  destruct (chansend ch (last (c w)) w) as [[] w2 tr2| |] eqn:Hs; [|done..].
  destruct (for_range ws _ w2) as [[] w3 tr3| |] eqn:Hf; [|done..].
  intros _. pose proof (chansend_Done_inv _ _ _ _ _ Hs) as Hch.
  apply Forall_cons; split; [done|].
  apply IH in Hf; [|done]. rewrite (chansend_ready _ _ _ Hch) in Hs.
  injection Hs as <- _. simpl in Hf.
  apply Forall_forall. intros x Hx.
  eapply Forall_forall in Hf; [|done].
  by rewrite chan_ready_after_send_ne in Hf by (intros ->; done).
Qed.

Lemma Update_Done_ready (v : gmap string Cluster) (w w' : world) (tr : list event) :
  NoDup (waiters (c w)) → Update v w = Done tt w' tr → waiters_ready w.
Proof.
  intros Hnd. unfold Update, notify.
  unfold mbind, M_bind, bind at 1 2 3 4. unfold set_values, get_last, set_last, get_waiters. simpl.
  unfold bind at 1.
  destruct (for_range _ _ _) as [[] w1 tr1| |] eqn:Hfr; [|done..].
  intros _. split; [done|]. by apply broadcast_Done_ready in Hfr.
Qed.

(** A full buffer and nobody receiving: the send parks the sender. *)
Lemma chansend_full (ch : chan) (v : Z) (w : world) (st : hchan) :
  chans w !! ch = Some st → closed st = false → recvq st = 0%nat →
  (cap st ≤ length (buf st))%nat →
  chansend ch v w = Blocked.
Proof.
  intros Hl Hc Hq Hfull. unfold chansend, chansend_hchan. rewrite Hl, Hc, Hq. simpl.
  apply Nat.ltb_ge in Hfull. by rewrite Hfull.
Qed.

(** ** [Values] *)

Lemma Values_loop_filter (order : list (string * Cluster)) (filter_ : string → bool)
    (acc : list Cluster) :
  Values_loop order filter_ acc
  = acc ++ filter (λ x, filter_ (v2.Name x) = true) (order.*2).
Proof.
  revert acc. induction order as [|[k x] order IH]; intros acc; simpl.
  - by rewrite app_nil_r.
  - destruct (filter_ (v2.Name x)) eqn:Hf.
    + rewrite IH, filter_cons_True by done. by rewrite <- app_assoc.
    + rewrite IH, filter_cons_False by (simpl; congruence). done.
Qed.

Lemma Values_Permutation (filter_ : string → bool) (w : world) (out : list Cluster) :
  Values filter_ w out →
  out ≡ₚ filter (λ x, filter_ (v2.Name x) = true) (map_to_list (values (c w))).*2.
Proof.
  intros (order & Hp & ->). unfold Values_in. rewrite Values_loop_filter. simpl.
  by rewrite Hp.
Qed.

Lemma Values_total (filter_ : string → bool) (w : world) : ∃ out, Values filter_ w out.
Proof. eexists. exists (map_to_list (values (c w))). split; done. Qed.

(** ** Sequences of calls *)

Lemma run_call_last (k : call) (w w' : world) (tr : list event) :
  run_call k w = Done tt w' tr →
  last (c w') = if is_update k then GoInt.incr (last (c w)) else last (c w).
Proof.
  destruct k as [ch last_|v]; simpl.
  - destruct (Z.lt_ge_cases last_ (last (c w))) as [Hlt|Hge].
    + rewrite Register_stale by done. intros Hs. by rewrite (chansend_cache _ _ _ _ _ Hs).
    + rewrite Register_current by done. by intros [= <- <-].
  - intros Hu. by apply Update_Done_inv in Hu as (_ & _ & ->).
Qed.

Lemma run_cons (k : call) (ks : list call) (w : world) :
  run (k :: ks) w =
    match run_call k w with
    | Done _ w1 tr1 =>
        match run ks w1 with
        | Done b w2 tr2 => Done b w2 (tr1 ++ tr2)
        | Blocked => Blocked
        | Panicked => Panicked
        end
    | Blocked => Blocked
    | Panicked => Panicked
    end.
Proof. reflexivity. Qed.

Lemma count_updates_cons (k : call) (ks : list call) :
  count_updates (k :: ks) = ((if is_update k then 1 else 0) + count_updates ks)%nat.
Proof.
  unfold count_updates. destruct (is_update k) eqn:Hk.
  - by rewrite filter_cons_True.
  - rewrite filter_cons_False; [done|congruence].
Qed.

Lemma run_last (ks : list call) (w w' : world) (tr : list event) :
  (GoInt.min_int <= last (c w))%Z →
  (last (c w) + Z.of_nat (count_updates ks) <= GoInt.max_int)%Z →
  run ks w = Done tt w' tr →
  last (c w') = (last (c w) + Z.of_nat (count_updates ks))%Z.
Proof.
  revert w w' tr. induction ks as [|k ks IH]; intros w w' tr Hlo Hhi.
  - unfold_M. intros [= <- <-]. unfold count_updates. simpl. lia.
  - rewrite run_cons, count_updates_cons in *.
    destruct (run_call k w) as [[] w1 tr1| |] eqn:Hk; [|done..].
    destruct (run ks w1) as [[] w2 tr2| |] eqn:Hks; [|done..].
    intros [= <- <-]. apply run_call_last in Hk.
    destruct (is_update k).
    + rewrite incr_in_range in Hk by lia.
      apply IH in Hks; [|lia..]. rewrite Hks. lia.
    + apply IH in Hks; [|lia..]. rewrite Hks. lia.
Qed.

(** A run of [Update]s alone, from a cache with nobody waiting, returns
    and sends nothing. *)
Lemma run_updates_Done (vs : list (gmap string Cluster)) (w : world) :
  waiters (c w) = [] →
  ∃ w', run (CallUpdate <$> vs) w = Done tt w' [] ∧ waiters (c w') = [] ∧ chans w' = chans w.
Proof.
  revert w. induction vs as [|v vs IH]; intros w Hw.
  - exists w. by unfold_M.
  - rewrite fmap_cons, run_cons. simpl.
    rewrite Update_ready by (unfold waiters_ready; rewrite Hw; split; constructor).
    rewrite Hw. simpl.
    destruct (IH {| c := {| values := v; waiters := []; last := GoInt.incr (last (c w)) |};
                    chans := chans w |} eq_refl) as (w' & -> & Hw' & Hc').
    by exists w'.
Qed.

Lemma count_updates_fmap (vs : list (gmap string Cluster)) :
  count_updates (CallUpdate <$> vs) = length vs.
Proof.
  induction vs as [|v vs IH]; [done|].
  rewrite fmap_cons, count_updates_cons. simpl. by rewrite IH.
Qed.

(** ** The cache: the claims *)

(** C1. [Register(ch, last)] with [last] behind the cache's counter, on a
    channel that can take a value: the call returns having sent the
    current counter on [ch], exactly once, and leaves the cache (so the
    pending list) as it was; whenever such a call returns, that is what it
    has done. With [last] equal to the counter: the call sends nothing and
    appends [ch] to the pending list; whatever other channels are
    registered after it ([more]) and whatever happens to the channels
    meanwhile ([h2]), the next [Update], on pending channels that are
    ready and distinct, sends the new counter on [ch] exactly once. *)
Theorem Register_no_missed_notification (ch : chan) (last_ : Z) (w : world) :
  ((last_ < last (c w))%Z →
     (chan_ready (chans w) ch = true →
        ∃ w', Register ch last_ w = Done tt w' [(ch, last (c w))]
              ∧ deliveries ch [(ch, last (c w))] = [last (c w)]
              ∧ c w' = c w
              ∧ chans w' = chans_after_send (chans w) ch (last (c w)))
     ∧ (∀ w' tr, Register ch last_ w = Done tt w' tr →
          tr = [(ch, last (c w))] ∧ c w' = c w))
  ∧ (last_ = last (c w) →
     ∃ w1, Register ch last_ w = Done tt w1 []
           ∧ waiters (c w1) = waiters (c w) ++ [ch]
           ∧ values (c w1) = values (c w) ∧ last (c w1) = last (c w)
           ∧ chans w1 = chans w
           ∧ ∀ (more : list chan) (h2 : gmap chan hchan) (v : gmap string Cluster),
               let w2 := {| c := {| values := values (c w1);
                                    waiters := waiters (c w1) ++ more;
                                    last := last (c w1) |};
                            chans := h2 |} in
               waiters_ready w2 →
               ∃ w3 tr, Update v w2 = Done tt w3 tr
                        ∧ deliveries ch tr = [GoInt.incr (last (c w))]
                        ∧ waiters (c w3) = []).
Proof.
  split.
  - intros Hlt. rewrite Register_stale by done. split.
    + intros Hr. rewrite chansend_ready by done.
      eexists. split; [done|]. split; [|done].
      unfold deliveries. by rewrite filter_cons_True.
    + intros w' tr Hs. split; [by eapply chansend_trace|by eapply chansend_cache].
  - intros ->. rewrite Register_current by done.
    eexists. do 5 (split; [done|]). simpl.
    intros more h2 v Hr. rewrite Update_ready by done. simpl.
    eexists _, _. split; [done|]. split; [|done].
    destruct Hr as [Hnd _]. simpl in Hnd.
    apply deliveries_broadcast_in; [done|]. set_solver.
Qed.

(** C2. Whenever [Update(v)] returns, it has sent the new counter once
    for each entry of the pending list, in the order of registration, and
    nothing else, and the pending list is empty: an [Update] that follows
    sends nothing at all. On pending channels that are ready and distinct
    the call does return, each pending channel has received the new
    counter exactly once, and no other channel has received anything or
    changed. *)
Theorem Update_delivers_once_and_clears (v : gmap string Cluster) (w : world) :
  (∀ w' tr, Update v w = Done tt w' tr →
     tr = map (λ ch, (ch, GoInt.incr (last (c w)))) (waiters (c w))
     ∧ waiters (c w') = []
     ∧ last (c w') = GoInt.incr (last (c w))
     ∧ ∀ v2, ∃ w'', Update v2 w' = Done tt w'' [])
  ∧ (waiters_ready w →
     ∃ w' tr,
       Update v w = Done tt w' tr
       ∧ (∀ ch, ch ∈ waiters (c w) → deliveries ch tr = [GoInt.incr (last (c w))])
       ∧ (∀ ch, ch ∉ waiters (c w) →
            deliveries ch tr = [] ∧ chans w' !! ch = chans w !! ch)).
Proof.
  split.
  - intros w' tr Hu. split; [by eapply Update_Done_trace|].
    apply Update_Done_inv in Hu as (_ & Hw & Hl). do 2 (split; [done|]).
    intros v2. rewrite Update_ready by (split; rewrite Hw; constructor).
    rewrite Hw. simpl. eauto.
  - intros Hr. rewrite Update_ready by done. eexists _, _. split; [done|].
    destruct Hr as [Hnd Hr]. split; simpl.
    + intros ch Hin. by apply deliveries_broadcast_in.
    + intros ch Hni. split; [by apply deliveries_broadcast_notin|].
      by apply chans_after_broadcast_notin.
Qed.

(** C10. [Register(ch, last)] with [last] ahead of the cache's counter
    does what it does when they are equal: it sends nothing and appends
    [ch] to the pending list, and the next [Update] (on pending channels
    that are ready and distinct) sends the new counter on [ch] exactly
    once. *)
Theorem Register_future_version_waits (ch : chan) (last_ : Z) (w : world) :
  (last (c w) < last_)%Z →
  Register ch last_ w = Register ch (last (c w)) w
  ∧ ∃ w1, Register ch last_ w = Done tt w1 []
          ∧ waiters (c w1) = waiters (c w) ++ [ch]
          ∧ values (c w1) = values (c w) ∧ last (c w1) = last (c w)
          ∧ chans w1 = chans w
          ∧ ∀ (more : list chan) (h2 : gmap chan hchan) (v : gmap string Cluster),
              let w2 := {| c := {| values := values (c w1);
                                   waiters := waiters (c w1) ++ more;
                                   last := last (c w1) |};
                           chans := h2 |} in
              waiters_ready w2 →
              ∃ w3 tr, Update v w2 = Done tt w3 tr
                       ∧ deliveries ch tr = [GoInt.incr (last (c w))]
                       ∧ waiters (c w3) = [].
Proof.
  intros Hgt. rewrite !Register_current by lia. split; [done|].
  eexists. do 5 (split; [done|]). simpl.
  intros more h2 v Hr. rewrite Update_ready by done. simpl.
  eexists _, _. split; [done|]. split; [|done].
  destruct Hr as [Hnd _]. simpl in Hnd.
  apply deliveries_broadcast_in; [done|]. set_solver.
Qed.

(** C3, as amended. The counter of a new cache is 0. Over any sequence of
    at most [max_int] = 2^63 - 1 calls of [Update], every call returns,
    and after the first [n] of them the counter is [n]: each call adds
    exactly 1. More generally, in a run of [Register] and [Update] calls
    with at most [max_int] [Update]s, the counter on return is the number
    of [Update]s. *)
Theorem version_counts_updates (vs : list (gmap string Cluster)) (h : gmap chan hchan) (n : nat) :
  (Z.of_nat (length vs) <= GoInt.max_int)%Z →
  (n ≤ length vs)%nat →
  last zero_clusterCache = 0%Z
  ∧ (∃ w', run (CallUpdate <$> take n vs) {| c := zero_clusterCache; chans := h |} = Done tt w' []
           ∧ last (c w') = Z.of_nat n)
  ∧ (∀ ks w' tr,
       (Z.of_nat (count_updates ks) <= GoInt.max_int)%Z →
       run ks {| c := zero_clusterCache; chans := h |} = Done tt w' tr →
       last (c w') = Z.of_nat (count_updates ks)).
Proof.
  intros Hmax Hn. split; [done|]. split.
  - destruct (run_updates_Done (take n vs) {| c := zero_clusterCache; chans := h |} eq_refl)
      as (w' & Hrun & _ & _).
    exists w'. split; [done|].
    apply run_last in Hrun; simpl.
    + rewrite Hrun, count_updates_fmap, length_take. simpl. lia.
    + done.
    + rewrite count_updates_fmap, length_take. lia.
  - intros ks w' tr Hks Hrun. apply run_last in Hrun; simpl; [|done|lia].
    rewrite Hrun. simpl. lia.
Qed.

(** C4, as amended. A delivery is the plain send statement [ch <- c.last],
    made while the cache's lock is held. In [Register] with a stale
    [last], it completes exactly when the channel is allocated, open, and
    has a parked receiver or a free buffer slot; on a full buffer with
    nobody receiving the call parks, and never returns. [Update], on
    distinct pending channels, returns exactly when every one of them is
    ready in that sense, and parks when the first pending channel is full
    with nobody receiving. *)
Theorem delivery_is_a_blocking_send (ch : chan) (last_ : Z) (v : gmap string Cluster) (w : world) :
  ((last_ < last (c w))%Z →
     ((∃ w' tr, Register ch last_ w = Done tt w' tr) ↔ chan_ready (chans w) ch = true)
     ∧ (∀ st, chans w !! ch = Some st → closed st = false → recvq st = 0%nat →
              (cap st ≤ length (buf st))%nat → Register ch last_ w = Blocked))
  ∧ (NoDup (waiters (c w)) →
     ((∃ w' tr, Update v w = Done tt w' tr)
      ↔ Forall (λ ch, chan_ready (chans w) ch = true) (waiters (c w))))
  ∧ (∀ rest st, waiters (c w) = ch :: rest →
       chans w !! ch = Some st → closed st = false → recvq st = 0%nat →
       (cap st ≤ length (buf st))%nat → Update v w = Blocked).
Proof.
  split; [|split].
  - intros Hlt. rewrite Register_stale by done. split; [split|].
    + intros (w' & tr & Hs). by apply chansend_Done_inv in Hs.
    + intros Hr. rewrite chansend_ready by done. eauto.
    + intros st. apply chansend_full.
  - intros Hnd. split.
    + intros (w' & tr & Hu). by apply Update_Done_ready in Hu as [_ Hr].
    + intros Hr. rewrite Update_ready by done. eauto.
  - intros rest st Hws Hl Hc Hq Hfull. unfold Update, notify.
    unfold mbind, M_bind, bind at 1 2 3 4. unfold set_values, get_last, set_last, get_waiters.
    simpl. unfold bind at 1. rewrite Hws, for_range_cons.
    unfold mbind, M_bind, bind at 1. unfold get_last. simpl.
    by rewrite (chansend_full _ _ _ st).
Qed.

(** C5. Whatever the cache held, once [Update(v)] has returned the stored
    map is [v] itself; [Values] with the always-true filter then returns
    the values of [v], each entry once (in the order [range] happened to
    walk the map), and with any filter the values of [v] whose [Name]
    passes it. [Update] does return when the pending channels are ready. *)
Theorem Update_replaces_snapshot (v : gmap string Cluster) (w : world) :
  (∀ w' tr, Update v w = Done tt w' tr →
     values (c w') = v
     ∧ (∃ out, Values (λ _, true) w' out)
     ∧ (∀ out, Values (λ _, true) w' out → out ≡ₚ (map_to_list v).*2)
     ∧ (∀ filter_ out, Values filter_ w' out →
          out ≡ₚ filter (λ x, filter_ (v2.Name x) = true) (map_to_list v).*2))
  ∧ (waiters_ready w → ∃ w' tr, Update v w = Done tt w' tr).
Proof.
  split.
  - intros w' tr Hu. apply Update_Done_inv in Hu as (Hv & _ & _).
    split; [done|]. split; [apply Values_total|]. split.
    + intros out Hout. apply Values_Permutation in Hout. rewrite Hv in Hout.
      rewrite Hout. clear. induction ((map_to_list v).*2) as [|x l IH]; [done|].
      by rewrite filter_cons_True, IH.
    + intros filter_ out Hout. apply Values_Permutation in Hout. by rewrite Hv in Hout.
  - intros Hr. rewrite Update_ready by done. eauto.
Qed.

(** ** The visitor: traversal *)

Lemma foldl_visit_services (cs : list Vertex) (m : gmap string Cluster) :
  Forall (λ vertex, ∀ m, visit vertex m = foldl (λ m svc, edscluster svc m) m (services_of vertex)) cs →
  foldl (λ m child, visit child m) m cs
  = foldl (λ m svc, edscluster svc m) m (concat (map services_of cs)).
Proof.
  intros Hcs. revert m. induction Hcs as [|x cs Hx _ IH]; intros m; [done|].
  simpl. rewrite foldl_app, <- Hx. apply IH.
Qed.

Lemma visit_services (vertex : Vertex) (m : gmap string Cluster) :
  visit vertex m = foldl (λ m svc, edscluster svc m) m (services_of vertex).
Proof.
  revert m. induction vertex as [svc cs IH|cs IH] using Vertex_ind_children; intros m; simpl.
  - by apply foldl_visit_services.
  - by apply foldl_visit_services.
Qed.

Lemma Visit_services (d : dag.DAG ingressroutev1_HealthCheck) :
  Visit d = foldl (λ m svc, edscluster svc m) ∅ (services d).
Proof.
  unfold Visit, services. apply foldl_visit_services.
  apply Forall_forall. intros vertex _ m. apply visit_services.
Qed.

(** ** The visitor: first writer wins *)

Lemma Name_edscluster_new (name : string) (svc : Service) :
  v2.Name (edscluster_new name svc) = name.
Proof.
  unfold edscluster_new.
  repeat match goal with |- context [if ?b then _ else _] => destruct b end; done.
Qed.

Lemma edscluster_present (svc : Service) (m : gmap string Cluster) :
  is_Some (m !! envoy_Clustername svc) → edscluster svc m = m.
Proof. intros [x Hx]. unfold edscluster. by rewrite Hx. Qed.

Lemma edscluster_lookup (svc : Service) (m : gmap string Cluster) (k : string) :
  edscluster svc m !! k
  = match m !! k with
    | Some x => Some x
    | None => if decide (envoy_Clustername svc = k) then Some (edscluster_new k svc) else None
    end.
Proof.
  unfold edscluster. destruct (m !! envoy_Clustername svc) as [x|] eqn:Hx.
  - destruct (m !! k) eqn:Hk; [done|]. case_decide; [congruence|done].
  - rewrite Name_edscluster_new. case_decide as Hd.
    + subst k. by rewrite lookup_insert_eq, Hx.
    + rewrite lookup_insert_ne by done. by destruct (m !! k).
Qed.

Lemma foldl_edscluster_lookup (l : list Service) (m : gmap string Cluster) (k : string) :
  foldl (λ m svc, edscluster svc m) m l !! k
  = match m !! k with
    | Some x => Some x
    | None => (λ p : nat * Service, edscluster_new k p.2)
                <$> list_find (λ svc, envoy_Clustername svc = k) l
    end.
Proof.
  revert m. induction l as [|svc l IH]; intros m; simpl.
  - by destruct (m !! k).
  - rewrite IH, edscluster_lookup. destruct (m !! k); [done|].
    case_decide; [done|]. by destruct (list_find _ l) as [[]|].
Qed.

Lemma Visit_lookup (d : dag.DAG ingressroutev1_HealthCheck) (k : string) :
  Visit d !! k
  = (λ p : nat * Service, edscluster_new k p.2)
      <$> list_find (λ svc, envoy_Clustername svc = k) (services d).
Proof. by rewrite Visit_services, foldl_edscluster_lookup, lookup_empty. Qed.

Lemma Visit_Name (d : dag.DAG ingressroutev1_HealthCheck) (k : string) (x : Cluster) :
  Visit d !! k = Some x → v2.Name x = k.
Proof.
  rewrite Visit_lookup. destruct (list_find _ _) as [[i svc]|]; [|done].
  simpl. intros [= <-]. apply Name_edscluster_new.
Qed.

Lemma filter_none {A} (P : A → Prop) `{∀ x, Decision (P x)} (l : list A) :
  Forall (λ x, ¬ P x) l → filter P l = [].
Proof.
  induction 1 as [|x l Hx _ IH]; [done|]. by rewrite filter_cons_False.
Qed.

(** In a map filed under the clusters' own names, one entry bears a name
    that is a key. *)
Lemma one_entry_per_name (m : gmap string Cluster) (k : string) (x : Cluster) :
  (∀ k' x', m !! k' = Some x' → v2.Name x' = k') →
  m !! k = Some x →
  filter (λ kc : string * Cluster, v2.Name kc.2 = k) (map_to_list m) ≡ₚ [(k, x)].
Proof.
  intros Hnames Hk.
  rewrite <- (map_to_list_delete m k x Hk).
  rewrite filter_cons_True by (simpl; eauto).
  apply Permutation_skip.
  rewrite filter_none; [done|].
  apply Forall_forall. intros [k' x'] Hin. simpl.
  apply elem_of_map_to_list in Hin.
  apply lookup_delete_Some in Hin as [Hne Hin].
  rewrite (Hnames _ _ Hin). congruence.
Qed.

(** C6. Two occurrences of service vertices in one traversal (positions
    [i < j] in the order of the visit) whose cluster name is the same: the
    map [Visit] returns has one cluster of that name; it is the one built
    from the first vertex of that name the traversal met ([list_find]),
    which is met no later than position [i]. A vertex whose name is
    already filed leaves the map as it is, and the traversal goes on into
    its children; altogether [Visit] is [edscluster] run over every
    service vertex the traversal meets. *)
Theorem Visit_first_writer_wins (d : dag.DAG ingressroutev1_HealthCheck)
    (i j : nat) (s1 s2 : Service) :
  (i < j)%nat →
  services d !! i = Some s1 →
  services d !! j = Some s2 →
  envoy_Clustername s1 = envoy_Clustername s2 →
  let name := envoy_Clustername s1 in
  ∃ (k : nat) (s0 : Service),
    list_find (λ svc, envoy_Clustername svc = name) (services d) = Some (k, s0)
    ∧ (k ≤ i)%nat
    ∧ Visit d !! name = Some (edscluster_new name s0)
    ∧ length (filter (λ kc : string * Cluster, v2.Name kc.2 = name) (map_to_list (Visit d))) = 1%nat
    ∧ Visit d = foldl (λ m svc, edscluster svc m) ∅ (services d)
    ∧ (∀ svc m, is_Some (m !! envoy_Clustername svc) → edscluster svc m = m)
    ∧ (∀ svc cs m, is_Some (m !! envoy_Clustername svc) →
         visit (dag.ServiceVertex svc cs) m = foldl (λ m child, visit child m) m cs).
Proof.
  intros Hij Hi Hj Hname name.
  destruct (list_find (λ svc, envoy_Clustername svc = name) (services d)) as [[k s0]|] eqn:Hfind.
  - exists k, s0. split; [done|].
    pose proof Hfind as Hfind'.
    apply list_find_Some in Hfind' as (Hk & Hs0 & Hfirst).
    assert (Hlook : Visit d !! name = Some (edscluster_new name s0))
      by (by rewrite Visit_lookup, Hfind).
    split.
    { destruct (decide (k ≤ i)%nat) as [|Hgt]; [done|].
      exfalso. by apply (Hfirst i s1); [|lia|]. }
    split; [done|]. split.
    { rewrite (one_entry_per_name _ _ _ (Visit_Name d) Hlook). done. }
    split; [apply Visit_services|]. split; [apply edscluster_present|].
    intros svc cs m Hm. simpl. by rewrite edscluster_present.
  - exfalso. apply list_find_None in Hfind.
    eapply Forall_forall in Hfind; [by apply Hfind|].
    by eapply list_elem_of_lookup_2.
Qed.

(** ** [edsconfig]: the service name *)

Lemma slash_split (a1 a2 r1 r2 : string) :
  slash_free a1 = true → slash_free a2 = true →
  a1 +:+ "/" +:+ r1 = a2 +:+ "/" +:+ r2 → a1 = a2 ∧ r1 = r2.
Proof.
  revert a2. induction a1 as [|x a1 IH]; intros [|y a2] H1 H2 Heq; simpl in Heq.
  - injection Heq as Heq. by subst.
  - injection Heq as Hy _. subst y. cbv in H2. done.
  - injection Heq as Hx _. subst x. cbv in H1. done.
  - injection Heq as Hxy Heq. subst y.
    simpl in H1, H2.
    apply andb_true_iff in H1 as [_ H1]. apply andb_true_iff in H2 as [_ H2].
    destruct (IH a2 H1 H2 Heq) as [-> ->]. done.
Qed.

Lemma slash_free_no_slash (a b : string) : slash_free (a +:+ "/" +:+ b) = false.
Proof.
  induction a as [|x a IH]; simpl; [done|].
  rewrite IH. apply andb_false_r.
Qed.

Lemma edsconfig_ServiceName (source : string) (service : Service) :
  v2.ServiceName (edsconfig source service)
  = if decide (v1.Name (dag.ServicePort service) = "")
    then dag.Namespace service +:+ "/" +:+ dag.Name service
    else dag.Namespace service +:+ "/" +:+ dag.Name service
         +:+ "/" +:+ v1.Name (dag.ServicePort service).
Proof.
  unfold edsconfig. simpl.
  destruct (String.eqb_spec (v1.Name (dag.ServicePort service)) "") as [->|Hne].
  - by rewrite decide_True.
  - by rewrite decide_False.
Qed.

(** C7. The service name [edsconfig] gives a vertex is its namespace, name
    and port name joined by ['/'], without the last segment when the port
    has no name; on vertices whose three strings hold no ['/'], equal
    service names mean equal namespace, name and port name. *)
Theorem edsconfig_identity_injective (source : string) (s1 s2 : Service) :
  wellformed s1 = true → wellformed s2 = true →
  (v2.ServiceName (edsconfig source s1)
   = strings_Join
       (if decide (v1.Name (dag.ServicePort s1) = "")
        then [dag.Namespace s1; dag.Name s1]
        else [dag.Namespace s1; dag.Name s1; v1.Name (dag.ServicePort s1)]) "/")
  ∧ (v1.Name (dag.ServicePort s1) = "" →
     v2.ServiceName (edsconfig source s1) = dag.Namespace s1 +:+ "/" +:+ dag.Name s1)
  ∧ (v2.ServiceName (edsconfig source s1) = v2.ServiceName (edsconfig source s2) →
     dag.Namespace s1 = dag.Namespace s2
     ∧ dag.Name s1 = dag.Name s2
     ∧ v1.Name (dag.ServicePort s1) = v1.Name (dag.ServicePort s2)).
Proof.
  intros Hw1 Hw2.
  apply andb_true_iff in Hw1 as [Hw1 Hp1]. apply andb_true_iff in Hw1 as [Hns1 Hn1].
  apply andb_true_iff in Hw2 as [Hw2 Hp2]. apply andb_true_iff in Hw2 as [Hns2 Hn2].
  split; [|split].
  - rewrite edsconfig_ServiceName. by case_decide.
  - intros Hp. rewrite edsconfig_ServiceName. by rewrite decide_True.
  - rewrite !edsconfig_ServiceName.
    destruct (decide (v1.Name (dag.ServicePort s1) = "")) as [E1|E1];
      destruct (decide (v1.Name (dag.ServicePort s2) = "")) as [E2|E2]; intros Heq.
    + apply slash_split in Heq as [-> ->]; [|done..]. by rewrite E1, E2.
    + apply slash_split in Heq as [_ Heq]; [|done..].
      rewrite Heq, slash_free_no_slash in Hn1. done.
    + apply slash_split in Heq as [_ Heq]; [|done..].
      rewrite <- Heq, slash_free_no_slash in Hn2. done.
    + apply slash_split in Heq as [-> Heq]; [|done..].
      apply slash_split in Heq as [-> ->]; done.
Qed.

(** ** [edscluster]: the cluster built for a service *)

Lemma uint32OrNil_encoded (val : Z) : limit_encoded val (uint32OrNil val).
Proof.
  unfold limit_encoded, uint32OrNil. split.
  - intros Hpos. destruct (Z.eqb_spec val 0); [lia|done].
  - by intros ->.
Qed.

Lemma CircuitBreakers_edscluster_new (name : string) (svc : Service) :
  v2.CircuitBreakers (edscluster_new name svc)
  = if (0 <? dag.MaxConnections svc)%Z || (0 <? dag.MaxPendingRequests svc)%Z
       || (0 <? dag.MaxRequests svc)%Z || (0 <? dag.MaxRetries svc)%Z
    then Some {| cluster.Thresholds :=
                   [ {| cluster.MaxConnections := uint32OrNil (dag.MaxConnections svc);
                        cluster.MaxPendingRequests := uint32OrNil (dag.MaxPendingRequests svc);
                        cluster.MaxRequests := uint32OrNil (dag.MaxRequests svc);
                        cluster.MaxRetries := uint32OrNil (dag.MaxRetries svc) |} ] |}
    else None.
Proof.
  unfold edscluster_new.
  destruct (_ || _); destruct (String.eqb (dag.Protocol svc) "h2");
    destruct (String.eqb (dag.Protocol svc) "h2c"); done.
Qed.

Lemma Http2ProtocolOptions_edscluster_new (name : string) (svc : Service) :
  v2.Http2ProtocolOptions (edscluster_new name svc)
  = if String.eqb (dag.Protocol svc) "h2" then Some core.Http2ProtocolOptions_empty
    else if String.eqb (dag.Protocol svc) "h2c" then Some core.Http2ProtocolOptions_empty
    else None.
Proof.
  unfold edscluster_new.
  destruct (_ || _); destruct (String.eqb (dag.Protocol svc) "h2");
    destruct (String.eqb (dag.Protocol svc) "h2c"); done.
Qed.

Lemma TlsContext_edscluster_new (name : string) (svc : Service) :
  v2.TlsContext (edscluster_new name svc)
  = if String.eqb (dag.Protocol svc) "h2"
    then Some {| auth.UpstreamTlsContext_CommonTlsContext :=
                   Some {| auth.AlpnProtocols := ["h2"] |} |}
    else None.
Proof.
  unfold edscluster_new.
  destruct (_ || _); destruct (String.eqb (dag.Protocol svc) "h2");
    destruct (String.eqb (dag.Protocol svc) "h2c"); done.
Qed.

Lemma edscluster_files_new (svc : Service) :
  edscluster svc ∅ !! envoy_Clustername svc
  = Some (edscluster_new (envoy_Clustername svc) svc).
Proof. rewrite edscluster_lookup, lookup_empty. by rewrite decide_True. Qed.

(** C8. The cluster built for a service carries a circuit-breaker block
    exactly when one of the four limits is above zero. The block has one
    thresholds entry; in it a limit above zero is present, as [u32] of the
    limit, and a limit of zero is absent. *)
Theorem circuit_breakers_only_positive_limits (svc : Service) :
  let name := envoy_Clustername svc in
  let c_ := edscluster_new name svc in
  edscluster svc ∅ !! name = Some c_
  ∧ (is_Some (v2.CircuitBreakers c_)
     ↔ (0 < dag.MaxConnections svc ∨ 0 < dag.MaxPendingRequests svc
        ∨ 0 < dag.MaxRequests svc ∨ 0 < dag.MaxRetries svc)%Z)
  ∧ (∀ cb, v2.CircuitBreakers c_ = Some cb →
       ∃ t, cluster.Thresholds cb = [t]
            ∧ limit_encoded (dag.MaxConnections svc) (cluster.MaxConnections t)
            ∧ limit_encoded (dag.MaxPendingRequests svc) (cluster.MaxPendingRequests t)
            ∧ limit_encoded (dag.MaxRequests svc) (cluster.MaxRequests t)
            ∧ limit_encoded (dag.MaxRetries svc) (cluster.MaxRetries t)).
Proof.
  intros name c_. split; [apply edscluster_files_new|].
  unfold c_. rewrite CircuitBreakers_edscluster_new.
  destruct (_ || _) eqn:Hany.
  - split.
    + split; [|eauto]. intros _.
      repeat (apply orb_true_iff in Hany as [Hany|Hany]);
        apply Z.ltb_lt in Hany; tauto.
    + intros cb [= <-]. eexists. split; [done|]. simpl.
      repeat split; apply uint32OrNil_encoded.
  - split; [|done]. split; [by intros [? ?]|].
    intros Hpos. exfalso.
    repeat (apply orb_false_iff in Hany as [Hany ?]).
    repeat match goal with Hb : (_ <? _)%Z = false |- _ => apply Z.ltb_ge in Hb end.
    lia.
Qed.

(** C9. The protocol of the service decides two fields of the cluster and
    nothing else fails: ["h2"] sets the HTTP/2 options and a TLS context
    whose ALPN list is ["h2"]; ["h2c"] sets the HTTP/2 options and no TLS
    context; any other string leaves both unset. *)
Theorem protocol_three_way_switch (svc : Service) :
  let name := envoy_Clustername svc in
  let c_ := edscluster_new name svc in
  edscluster svc ∅ !! name = Some c_
  ∧ (dag.Protocol svc = "h2" →
       v2.Http2ProtocolOptions c_ = Some core.Http2ProtocolOptions_empty
       ∧ v2.TlsContext c_
         = Some {| auth.UpstreamTlsContext_CommonTlsContext :=
                     Some {| auth.AlpnProtocols := ["h2"] |} |})
  ∧ (dag.Protocol svc = "h2c" →
       v2.Http2ProtocolOptions c_ = Some core.Http2ProtocolOptions_empty
       ∧ v2.TlsContext c_ = None)
  ∧ (dag.Protocol svc ≠ "h2" → dag.Protocol svc ≠ "h2c" →
       v2.Http2ProtocolOptions c_ = None ∧ v2.TlsContext c_ = None).
Proof.
  intros name c_. split; [apply edscluster_files_new|].
  unfold c_. rewrite Http2ProtocolOptions_edscluster_new, TlsContext_edscluster_new.
  split; [|split].
  - by intros ->.
  - by intros ->.
  - intros Hh2 Hh2c.
    destruct (String.eqb_spec (dag.Protocol svc) "h2"); [done|].
    by destruct (String.eqb_spec (dag.Protocol svc) "h2c").
Qed.

End Proofs.

(** * The theorems on the worked instances *)

Import Examples.
#[local] Existing Instance imports.

(** C1 at the counter 1: a subscriber that last saw 0 is served at
    once; one that has seen 1 is queued and served by the next
    [Update], with 2. *)
Lemma Register_no_missed_notification_witness :
  (∃ w', Register 0%nat 0 w1 = Done tt w' [(0%nat, 1%Z)] ∧ c w' = c w1)
  ∧ (∃ w', Register 0%nat 1 w1 = Done tt w' []
           ∧ waiters (c w') = [0%nat]
           ∧ ∃ w3 tr, Update ∅ {| c := {| values := values (c w');
                                          waiters := waiters (c w') ++ [1%nat];
                                          last := last (c w') |};
                                  chans := chans w0 |} = Done tt w3 tr
                      ∧ deliveries 0%nat tr = [2%Z]).
Proof.
  split.
  - destruct (Register_no_missed_notification 0%nat 0 w1) as [Hstale _].
    destruct (Hstale eq_refl) as [Hsend _].
    destruct (Hsend eq_refl) as (w' & Hr & _ & Hc & _). eauto.
  - destruct (Register_no_missed_notification 0%nat 1 w1) as [_ Hcur].
    destruct (Hcur eq_refl) as (w' & Hr & Hw & _ & _ & _ & Hnext).
    exists w'. split; [done|]. split; [done|].
    destruct (Hnext [1%nat] (chans w0) ∅) as (w3 & tr & Hu & Hd & _).
    + rewrite Hw. split; [|repeat constructor].
      apply NoDup_cons; split; [by intros ?%list_elem_of_singleton|]. apply NoDup_singleton.
    + eauto.
Defined.

(** C2 with two channels pending. *)
Lemma Update_delivers_once_and_clears_witness :
  waiters_ready w1_pending
  ∧ ∃ w', Update ∅ w1_pending = Done tt w' [(0%nat, 2%Z); (1%nat, 2%Z)]
          ∧ waiters (c w') = []
          ∧ deliveries 0%nat [(0%nat, 2%Z); (1%nat, 2%Z)] = [2%Z].
Proof.
  assert (Hr : waiters_ready w1_pending).
  { split; [|repeat constructor].
    apply NoDup_cons; split; [by intros ?%list_elem_of_singleton|]. apply NoDup_singleton. }
  split; [done|].
  destruct (Update_delivers_once_and_clears ∅ w1_pending) as [Hinv Hret].
  destruct (Hret Hr) as (w' & tr & Hu & _).
  destruct (Hinv w' tr Hu) as (Htr & Hw & _).
  exists w'. rewrite Htr in Hu. split; [exact Hu|]. split; [exact Hw|reflexivity].
Defined.

(** C10: a subscriber that claims to have seen 5 when the counter is 1. *)
Lemma Register_future_version_waits_witness :
  (last (c w1) < 5)%Z
  ∧ ∃ w', Register 0%nat 5 w1 = Done tt w' [] ∧ waiters (c w') = [0%nat].
Proof.
  split; [done|].
  destruct (Register_future_version_waits 0%nat 5 w1 eq_refl)
    as (_ & w' & Hr & Hw & _).
  eauto.
Defined.

(** C3, as amended: the first of two [Update]s leaves the counter at 1. *)
Lemma version_counts_updates_witness :
  ∃ w', run [CallUpdate (∅ : gmap string (v2.Cluster unit))] w0 = Done tt w' []
        ∧ last (c w') = 1%Z.
Proof.
  destruct (version_counts_updates [∅; ∅] (chans w0) 1) as (_ & Hrun & _).
  - by vm_compute.
  - simpl. lia.
  - exact Hrun.
Defined.

(** C3 as stated fails: [max_int] = 2^63 - 1 calls of [Update] on a new
    cache bring the counter to [max_int], and the next call takes it to
    [min_int] = -2^63, below every version delivered before. *)
Lemma version_wraps_after_max_int_updates :
  ∃ w w' : world,
    run (CallUpdate <$> replicate (Z.to_nat GoInt.max_int) (∅ : gmap string (v2.Cluster unit)))
        {| c := zero_clusterCache; chans := ∅ |} = Done tt w []
    ∧ last (c w) = GoInt.max_int
    ∧ Update ∅ w = Done tt w' []
    ∧ last (c w') = GoInt.min_int
    ∧ (last (c w') < last (c w))%Z.
Proof.
  assert (Hpos : (0 <= GoInt.max_int)%Z) by (by vm_compute).
  pose proof (Z2Nat.id _ Hpos) as Hn.
  revert Hn. generalize (Z.to_nat GoInt.max_int). intros n Hn.
  destruct (run_updates_Done (replicate n ∅) {| c := zero_clusterCache; chans := ∅ |} eq_refl)
    as (w & Hrun & Hws & _).
  assert (Hlast : last (c w) = GoInt.max_int).
  { apply run_last in Hrun.
    - rewrite Hrun, count_updates_fmap, length_replicate. cbn [c last zero_clusterCache]. lia.
    - by vm_compute.
    - rewrite count_updates_fmap, length_replicate. cbn [c last zero_clusterCache]. lia. }
  exists w. eexists. split; [exact Hrun|]. split; [exact Hlast|].
  rewrite Update_ready by (split; rewrite Hws; constructor).
  rewrite Hws, Hlast. cbn [map c last].
  split; [reflexivity|]. split; [reflexivity|]. by vm_compute.
Qed.

(** C4, as amended, on the channel of [w1]: empty, so the delivery goes
    through. *)
Lemma delivery_is_a_blocking_send_witness :
  ∃ w' tr, Register 0%nat 0 w1 = Done tt w' tr.
Proof.
  destruct (delivery_is_a_blocking_send 0%nat 0 ∅ w1) as [Hreg _].
  destruct (Hreg eq_refl) as [[_ Hdone] _].
  exact (Hdone eq_refl).
Defined.

(** C4 as stated fails. A subscriber registers its one-slot channel
    with a stale version twice without receiving in between: the first
    call fills the buffer, the second parks inside [Register]. Likewise
    an [Update] parks on a pending channel whose buffer is full. *)
Lemma delivery_blocks_on_full_channel :
  run [CallUpdate ∅; CallRegister 0%nat 0] w0 = Done tt w1_full [(0%nat, 1%Z)]
  ∧ chan_ready (chans w1_full) 0%nat = false
  ∧ Register 0%nat 0 w1_full = Blocked
  ∧ run [CallUpdate ∅; CallRegister 0%nat 0; CallRegister 0%nat 0] w0 = Blocked
  ∧ run [CallUpdate ∅; CallRegister 0%nat 0; CallRegister 0%nat 1; CallUpdate ∅] w0 = Blocked.
Proof. repeat split; vm_compute; reflexivity. Qed.

(** C5 on the compiled example graph: [Values] after [Update]. *)
Lemma Update_replaces_snapshot_witness :
  ∃ w' tr, Update (Visit graph) w1_pending = Done tt w' tr
           ∧ values (c w') = Visit graph
           ∧ ∀ out, Values (λ _, true) w' out → out ≡ₚ (map_to_list (Visit graph)).*2.
Proof.
  destruct (Update_replaces_snapshot (Visit graph) w1_pending) as [Hafter Hret].
  destruct Hret as (w' & tr & Hu).
  { split; [|repeat constructor].
    apply NoDup_cons; split; [by intros ?%list_elem_of_singleton|]. apply NoDup_singleton. }
  destruct (Hafter w' tr Hu) as (Hv & _ & Hall & _).
  exists w', tr. split; [exact Hu|]. split; [exact Hv|exact Hall].
Defined.

(** C6 on the example graph: [web] is met first and again third. *)
Lemma Visit_first_writer_wins_witness :
  services graph = [web; api; web_again]
  ∧ envoy_Clustername web = envoy_Clustername web_again
  ∧ Visit graph !! "default/web/http" = Some (edscluster_new "default/web/http" web)
  ∧ length (filter (λ kc : string * v2.Cluster core_HealthCheck,
                      v2.Name kc.2 = "default/web/http")
                   (map_to_list (Visit graph))) = 1%nat.
Proof.
  split; [reflexivity|]. split; [reflexivity|].
  destruct (Visit_first_writer_wins graph 0 2 web web_again)
    as (k & s0 & Hfind & _ & Hlook & Hone & _);
    [lia|reflexivity|reflexivity|reflexivity|].
  vm_compute in Hfind. injection Hfind as <- <-.
  split; [exact Hlook|exact Hone].
Defined.

(** C7 on [web] and [api]. *)
Lemma edsconfig_identity_injective_witness :
  wellformed web = true ∧ wellformed api = true
  ∧ v2.ServiceName (edsconfig "contour" web) = "default/web/http"
  ∧ v2.ServiceName (edsconfig "contour" api) = "default/api".
Proof.
  split; [reflexivity|]. split; [reflexivity|].
  destruct (edsconfig_identity_injective "contour" web api eq_refl eq_refl) as (Hweb & _ & _).
  destruct (edsconfig_identity_injective "contour" api web eq_refl eq_refl) as (_ & Hapi & _).
  split; [exact Hweb|exact (Hapi eq_refl)].
Defined.

(** C8 on [api], whose only limit is 5 connections. *)
Lemma circuit_breakers_only_positive_limits_witness :
  ∃ cb t, v2.CircuitBreakers (edscluster_new "default/api" api) = Some cb
          ∧ cluster.Thresholds cb = [t]
          ∧ cluster.MaxConnections t = Some (u32 5)
          ∧ cluster.MaxPendingRequests t = None
          ∧ cluster.MaxRequests t = None
          ∧ cluster.MaxRetries t = None.
Proof.
  destruct (circuit_breakers_only_positive_limits api) as (_ & Hiff & Hblock).
  destruct (proj2 Hiff) as [cb Hcb]; [left; reflexivity|].
  destruct (Hblock cb Hcb) as (t & Ht & (Hconn & _) & (_ & Hpend) & (_ & Hreq) & (_ & Hretr)).
  exists cb, t. split; [exact Hcb|]. split; [exact Ht|].
  split; [exact (Hconn eq_refl)|]. split; [exact (Hpend eq_refl)|].
  split; [exact (Hreq eq_refl)|exact (Hretr eq_refl)].
Defined.

(** C9 on [web] (["h2"]) and on [api] (no protocol). *)
Lemma protocol_three_way_switch_witness :
  (v2.Http2ProtocolOptions (edscluster_new "default/web/http" web)
   = Some core.Http2ProtocolOptions_empty
   ∧ v2.TlsContext (edscluster_new "default/web/http" web)
     = Some {| auth.UpstreamTlsContext_CommonTlsContext :=
                 Some {| auth.AlpnProtocols := ["h2"] |} |})
  ∧ (v2.Http2ProtocolOptions (edscluster_new "default/api" api) = None
     ∧ v2.TlsContext (edscluster_new "default/api" api) = None).
Proof.
  split.
  - destruct (protocol_three_way_switch web) as (_ & Hh2 & _). exact (Hh2 eq_refl).
  - destruct (protocol_three_way_switch api) as (_ & _ & _ & Hother).
    apply Hother; discriminate.
Defined.
